(** * biowc-pathwaygraph: the Sphinx configuration module [docs/conf.py]

    The repository fragment is one Python module that the documentation
    builder executes once and whose global namespace it then reads.  The
    module is embedded as the list of its top-level statements, executed by
    explicit state passing over the module's global namespace (a Python
    dict, here a [gmap string value]).

    Strings are [String.string]: the UTF-8 bytes of the Python [str], as the
    source file stores them.  UTF-8 encoding is an injective monoid
    morphism, so equality, concatenation, emptiness and containment of the
    encoded strings coincide with those of the Python strings. *)

From Stdlib Require Import String Ascii List.
From stdpp Require Import gmap strings list fin_maps.

Local Open Scope string_scope.
Set Warnings "-register-all".

(** ** The fragment of Python the module is written in *)

Module Py.

(** Run-time values.  Modules, functions and classes are kept as opaque
    objects: only the fact that a statement binds one matters here. *)
Inductive value : Type :=
| VNone
| VStr (s : string)
| VList (vs : list value)
| VModule (name : string)
| VFunction (name : string)
| VClass (name : string).

(** Expressions: string literals, list displays, and name loads. *)
Inductive expr : Type :=
| EStr (s : string)
| EList (es : list expr)
| EName (x : string).

(** Top-level statements. *)
Inductive stmt : Type :=
| Assign (target : string) (e : expr)
| Import (name : string)
| FunctionDef (name : string)
| ClassDef (name : string)
| ExprStmt (e : expr).

Inductive exn : Type :=
| NameError (x : string).

Inductive result (A : Type) : Type :=
| Ok (a : A)
| Raise (e : exn).

Arguments Ok {A} a.
Arguments Raise {A} e.

Notation "'let*' x ':=' m 'in' k" :=
  (match m with Ok x => k | Raise err => Raise err end)
  (at level 10, x name, m at level 100, k at level 200, only parsing).

(** A list display evaluates its items left to right; the first exception
    aborts the display. *)
Definition eval_items (ev : expr -> result value)
  : list expr -> result (list value) :=
  fix go (es : list expr) : result (list value) :=
    match es with
    | [] => Ok []
    | e :: es' =>
        let* v := ev e in
        let* vs := go es' in
        Ok (v :: vs)
    end.

(** Evaluation at module level: a name is looked up in the globals, then in
    the builtins, and is a [NameError] when bound in neither. *)
Fixpoint eval (builtins globals : gmap string value) (e : expr)
  : result value :=
  match e with
  | EStr s => Ok (VStr s)
  | EList es =>
      let* vs := eval_items (eval builtins globals) es in
      Ok (VList vs)
  | EName x =>
      match globals !! x with
      | Some v => Ok v
      | None =>
          match builtins !! x with
          | Some v => Ok v
          | None => Raise (NameError x)
          end
      end
  end.

(** One top-level statement, as a transformer of the global namespace. *)
Definition exec_stmt (builtins globals : gmap string value) (s : stmt)
  : result (gmap string value) :=
  match s with
  | Assign x e =>
      let* v := eval builtins globals e in
      Ok (<[x := v]> globals)
  | Import m => Ok (<[m := VModule m]> globals)
  | FunctionDef f => Ok (<[f := VFunction f]> globals)
  | ClassDef c => Ok (<[c := VClass c]> globals)
  | ExprStmt e =>
      let* _v := eval builtins globals e in
      Ok globals
  end.

(** A module body: its statements in order; the first exception aborts. *)
Fixpoint exec (builtins globals : gmap string value) (body : list stmt)
  : result (gmap string value) :=
  match body with
  | [] => Ok globals
  | s :: rest =>
      let* globals' := exec_stmt builtins globals s in
      exec builtins globals' rest
  end.

(** Reading a variable of an executed module; nothing can be read from a
    module whose execution raised. *)
Definition getvar (r : result (gmap string value)) (x : string)
  : option value :=
  match r with
  | Ok ns => ns !! x
  | Raise _ => None
  end.

(** *** Syntactic classification *)

(** The name a statement binds in the global namespace, if any. *)
Definition bound_name (s : stmt) : option string :=
  match s with
  | Assign x _ => Some x
  | Import m => Some m
  | FunctionDef f => Some f
  | ClassDef c => Some c
  | ExprStmt _ => None
  end.

Definition bound_names (body : list stmt) : list string :=
  omap bound_name body.

Definition is_assign (s : stmt) : bool :=
  match s with Assign _ _ => true | _ => false end.

Definition is_import (s : stmt) : bool :=
  match s with Import _ => true | _ => false end.

Definition is_def (s : stmt) : bool :=
  match s with FunctionDef _ | ClassDef _ => true | _ => false end.

(** The names an expression loads. *)
Fixpoint names_loaded (e : expr) : list string :=
  match e with
  | EStr _ => []
  | EList es => flat_map names_loaded es
  | EName x => [x]
  end.

(** A literal constant: a string literal, or a display of literals. *)
Fixpoint is_literal (e : expr) : bool :=
  match e with
  | EStr _ => true
  | EList es => forallb is_literal es
  | EName _ => false
  end.

(** The value a literal denotes ([None] when the expression loads a name). *)
Fixpoint literal_value (e : expr) : option value :=
  match e with
  | EStr s => Some (VStr s)
  | EList es => VList <$> mapM literal_value es
  | EName _ => None
  end.

Definition literal_binding (s : stmt) : option (string * value) :=
  match s with
  | Assign x e => (fun v => (x, v)) <$> literal_value e
  | _ => None
  end.

(** The binding of [x] that survives a sequence of stores: the last one. *)
Fixpoint latest (x : string) (kvs : list (string * value)) : option value :=
  match kvs with
  | [] => None
  | (k, v) :: rest =>
      match latest x rest with
      | Some v' => Some v'
      | None => if String.eqb k x then Some v else None
      end
  end.

Definition store_all (globals : gmap string value)
    (kvs : list (string * value)) : gmap string value :=
  foldl (fun g kv => <[kv.1 := kv.2]> g) globals kvs.

(** *** Value shapes *)

Definition is_str (v : value) : bool :=
  match v with VStr _ => true | _ => false end.

Definition is_str_list (v : value) : bool :=
  match v with VList vs => forallb is_str vs | _ => false end.

(** [isinstance(v, str) and len(v) > 0] *)
Definition nonempty_str (v : value) : bool :=
  match v with VStr s => (0 <? String.length s)%nat | _ => false end.

(** [isinstance(v, list) and len(v) > 0 and all(nonempty_str(i) for i in v)] *)
Definition nonempty_str_list (v : value) : bool :=
  match v with
  | VList vs => (0 <? List.length vs)%nat && forallb nonempty_str vs
  | _ => false
  end.

Definition has_shape (p : value -> bool) (o : option value) : bool :=
  match o with Some v => p v | None => false end.

End Py.

Import Py.

(** ** The module [docs/conf.py] *)

Definition conf : list stmt :=
  [ Assign "project" (EStr "biowc-pathwaygraph");
    Assign "copyright" (EStr "2023, Julian Müller");
    Assign "author" (EStr "Julian Müller");
    Assign "extensions" (EList [EStr "sphinx_js"]);
    Assign "primary_domain" (EStr "js");
    Assign "js_language" (EStr "typescript");
    Assign "js_source_path" (EStr "../src");
    Assign "templates_path" (EList [EStr "_templates"]);
    Assign "exclude_patterns"
      (EList [EStr "_build"; EStr "Thumbs.db"; EStr ".DS_Store"]);
    Assign "html_theme" (EStr "alabaster");
    Assign "html_static_path" (EList [EStr "_static"]) ].

(** The configuration-variable contract of the documentation tool. *)
Definition string_vars : list string :=
  [ "project"; "copyright"; "author"; "primary_domain"; "js_language";
    "js_source_path"; "html_theme" ].

Definition list_vars : list string :=
  [ "extensions"; "templates_path"; "exclude_patterns"; "html_static_path" ].

Definition config_names : list string :=
  [ "project"; "copyright"; "author"; "extensions"; "primary_domain";
    "js_language"; "js_source_path"; "templates_path"; "exclude_patterns";
    "html_theme"; "html_static_path" ].

(** The namespace after the tool has executed the module, started from any
    builtins and any pre-populated globals. *)
Definition load_conf (builtins globals : gmap string value)
  : result (gmap string value) :=
  exec builtins globals conf.

Definition conf_bindings : list (string * value) :=
  default [] (mapM literal_binding conf).

(** ** Generic facts about evaluation *)

Section Evaluation.

Variables builtins globals : gmap string value.

(** Induction over expressions that reaches the items of a display. *)
Lemma expr_Forall_ind (P : expr -> Prop) :
  (forall s, P (EStr s)) ->
  (forall es, Forall P es -> P (EList es)) ->
  (forall x, P (EName x)) ->
  forall e, P e.
Proof.
  intros HStr HList HName.
  fix IH 1.
  intros [s | es | x].
  - apply HStr.
  - apply HList. induction es as [| e es IHes]; constructor; [apply IH | exact IHes].
  - apply HName.
Qed.

Lemma eval_items_literal (es : list expr) (vs : list value) :
  Forall (fun e => forall v, literal_value e = Some v ->
                             eval builtins globals e = Ok v) es ->
  mapM literal_value es = Some vs ->
  eval_items (eval builtins globals) es = Ok vs.
Proof.
  intros Hall. revert vs.
  induction Hall as [| e es He _ IHes]; intros vs Hvs; simpl in *.
  - by inversion Hvs.
  - destruct (literal_value e) as [v |] eqn:Hv; [| done].
    destruct (mapM literal_value es) as [vs' |] eqn:Hvs'; [| done].
    simpl in Hvs. inversion Hvs; subst.
    by rewrite (He v eq_refl), (IHes vs' eq_refl).
Qed.

(** A literal evaluates to the value it denotes, whatever the namespaces. *)
Lemma eval_literal (e : expr) (v : value) :
  literal_value e = Some v -> eval builtins globals e = Ok v.
Proof.
  revert v. induction e as [s | es IHes | x] using expr_Forall_ind;
    intros v Hv; simpl in *.
  - by inversion Hv.
  - destruct (mapM literal_value es) as [vs |] eqn:Hvs; [| done].
    inversion Hv; subst.
    by rewrite (eval_items_literal es vs IHes Hvs).
  - done.
Qed.

End Evaluation.

Lemma is_literal_value (e : expr) :
  is_literal e = true <-> is_Some (literal_value e).
Proof.
  induction e as [s | es IHes | x] using expr_Forall_ind; simpl.
  - split; eauto.
  - rewrite fmap_is_Some. induction IHes as [| e es He _ IH]; simpl.
    + split; eauto.
    + rewrite andb_true_iff, He, IH. split.
      * intros [[v ->] [vs ->]]. simpl. eauto.
      * intros [vs Hvs].
        destruct (literal_value e); [| done].
        destruct (mapM literal_value es); [| done]. eauto.
  - split; [done | by intros [? ?]].
Qed.

(** A body of literal assignments never raises: it stores its bindings in
    order into the initial globals. *)
Lemma exec_literal_body builtins (body : list stmt) :
  forall (kvs : list (string * value)) (globals : gmap string value),
  mapM literal_binding body = Some kvs ->
  exec builtins globals body = Ok (store_all globals kvs).
Proof.
  induction body as [| s rest IH]; intros kvs globals Hkvs; simpl in *.
  - by inversion Hkvs.
  - destruct (literal_binding s) as [[x v] |] eqn:Hs; [| done].
    destruct (mapM literal_binding rest) as [kvs' |] eqn:Hrest; [| done].
    simpl in Hkvs. inversion Hkvs; subst.
    destruct s as [y e | | | |]; simpl in Hs; try done.
    destruct (literal_value e) as [v' |] eqn:He; [| done].
    simpl in Hs. inversion Hs; subst.
    simpl. rewrite (eval_literal builtins globals e v He).
    by rewrite (IH kvs' _ eq_refl).
Qed.

Lemma lookup_store_all (x : string) (kvs : list (string * value)) :
  forall globals : gmap string value,
  store_all globals kvs !! x =
    match latest x kvs with Some v => Some v | None => globals !! x end.
Proof.
  unfold store_all.
  induction kvs as [| [k v] rest IH]; intros globals; simpl; [done |].
  rewrite IH. destruct (latest x rest) as [v' |]; [done |].
  destruct (String.eqb_spec k x) as [-> | Hne].
  - by rewrite lookup_insert_eq.
  - by rewrite lookup_insert_ne.
Qed.

(** ** The namespace produced by [conf] *)

Lemma conf_literal_bindings : mapM literal_binding conf = Some conf_bindings.
Proof. reflexivity. Qed.

Lemma load_conf_ok builtins globals :
  load_conf builtins globals = Ok (store_all globals conf_bindings).
Proof. apply exec_literal_body, conf_literal_bindings. Qed.

Lemma getvar_load_conf builtins globals (x : string) :
  getvar (load_conf builtins globals) x =
    match latest x conf_bindings with
    | Some v => Some v
    | None => globals !! x
    end.
Proof. rewrite load_conf_ok. unfold getvar. apply lookup_store_all. Qed.

Ltac read_conf :=
  repeat match goal with
         | |- _ /\ _ => split
         | |- Forall _ (_ :: _) => constructor
         | |- Forall _ [] => constructor
         end;
  rewrite ?getvar_load_conf; try reflexivity.

(** A name that no binding mentions is not stored. *)
Lemma latest_None (x : string) (kvs : list (string * value)) :
  x ∉ kvs.*1 -> latest x kvs = None.
Proof.
  induction kvs as [| [k v] rest IH]; simpl; [done |].
  rewrite not_elem_of_cons. intros [Hne Hrest].
  rewrite (IH Hrest). destruct (String.eqb_spec k x); congruence.
Qed.

Lemma conf_bindings_names : conf_bindings.*1 = config_names.
Proof. reflexivity. Qed.

(** The source stores the umlaut of the author's name as the two UTF-8
    bytes 0xC3 0xBC. *)
Example author_utf8 :
  "Julian Müller" =
  "Julian M" +:+ String (ascii_of_nat 195) (String (ascii_of_nat 188) "ller").
Proof. reflexivity. Qed.

(** ** The configuration contract *)

(** C1: the module binds each of the eleven configuration variables; the
    seven scalar ones hold strings and the four list-valued ones hold lists
    of strings. *)
Theorem conf_binds_shapes builtins globals :
  config_names ≡ₚ string_vars ++ list_vars /\
  Forall (fun x => has_shape is_str (getvar (load_conf builtins globals) x) = true)
    string_vars /\
  Forall (fun x => has_shape is_str_list (getvar (load_conf builtins globals) x) = true)
    list_vars.
Proof.
  split.
  - unfold config_names, string_vars, list_vars. simpl. solve_Permutation.
  - unfold string_vars, list_vars. read_conf.
Qed.

(** C2: each of the eleven variables is bound to a non-empty value: the
    strings are non-empty, and the lists are non-empty lists of non-empty
    strings. *)
Theorem conf_values_nonempty builtins globals :
  Forall (fun x => has_shape nonempty_str (getvar (load_conf builtins globals) x) = true)
    string_vars /\
  Forall (fun x => has_shape nonempty_str_list (getvar (load_conf builtins globals) x) = true)
    list_vars.
Proof. unfold string_vars, list_vars. read_conf. Qed.

(** C3: the project metadata: [project] is 'biowc-pathwaygraph', [author] is
    'Julian Müller' and [copyright] is '2023, Julian Müller'. *)
Theorem conf_project_metadata builtins globals :
  getvar (load_conf builtins globals) "project"
    = Some (VStr "biowc-pathwaygraph") /\
  getvar (load_conf builtins globals) "author"
    = Some (VStr "Julian Müller") /\
  getvar (load_conf builtins globals) "copyright"
    = Some (VStr "2023, Julian Müller").
Proof. read_conf. Qed.

(** C4: exactly one extension is selected, the TypeScript API extractor:
    [extensions] is the one-element list ['sphinx_js'] and [js_language] is
    'typescript'. *)
Theorem conf_extension builtins globals :
  getvar (load_conf builtins globals) "extensions"
    = Some (VList [VStr "sphinx_js"]) /\
  getvar (load_conf builtins globals) "js_language"
    = Some (VStr "typescript").
Proof. read_conf. Qed.

(** C5: the language and source location: [primary_domain] is 'js',
    [js_language] is 'typescript' and [js_source_path] is '../src'. *)
Theorem conf_language_and_source builtins globals :
  getvar (load_conf builtins globals) "primary_domain" = Some (VStr "js") /\
  getvar (load_conf builtins globals) "js_language"
    = Some (VStr "typescript") /\
  getvar (load_conf builtins globals) "js_source_path" = Some (VStr "../src").
Proof. read_conf. Qed.

(** C6: the HTML output: [html_theme] is 'alabaster', [html_static_path] is
    ['_static'] and [templates_path] is ['_templates']. *)
Theorem conf_html_output builtins globals :
  getvar (load_conf builtins globals) "html_theme"
    = Some (VStr "alabaster") /\
  getvar (load_conf builtins globals) "html_static_path"
    = Some (VList [VStr "_static"]) /\
  getvar (load_conf builtins globals) "templates_path"
    = Some (VList [VStr "_templates"]).
Proof. read_conf. Qed.

(** C7: [exclude_patterns] is the list ['_build', 'Thumbs.db', '.DS_Store'],
    in that order. *)
Theorem conf_exclude_patterns builtins globals :
  getvar (load_conf builtins globals) "exclude_patterns"
    = Some (VList [VStr "_build"; VStr "Thumbs.db"; VStr ".DS_Store"]).
Proof. read_conf. Qed.

(** C8: evaluation is deterministic and input-independent: every statement
    is an assignment of a literal, which evaluates to one and the same value
    under all builtins and globals; hence the module never raises, and any
    two evaluations agree on each of the eleven variables. *)
Theorem conf_deterministic :
  Forall (fun s => exists x e v,
            s = Assign x e /\ is_literal e = true /\ names_loaded e = [] /\
            forall builtins globals, eval builtins globals e = Ok v) conf /\
  (forall builtins globals, exists ns, load_conf builtins globals = Ok ns) /\
  (forall builtins1 globals1 builtins2 globals2,
     Forall (fun x => is_Some (getvar (load_conf builtins1 globals1) x) /\
                      getvar (load_conf builtins1 globals1) x
                      = getvar (load_conf builtins2 globals2) x)
       config_names).
Proof.
  split; [| split].
  - unfold conf.
    repeat constructor; do 3 eexists; (split; [reflexivity |]);
      repeat split; intros; reflexivity.
  - intros b g. rewrite load_conf_ok. eauto.
  - intros b1 g1 b2 g2. unfold config_names.
    repeat constructor; rewrite ?getvar_load_conf; simpl; eauto.
Qed.

(** C9: the top level consists of the eleven configuration assignments
    only: no import, no function or class definition, no other statement;
    the names it binds are the eleven configuration variables, each bound
    exactly once; every other name of the namespace is left as it was. *)
Theorem conf_only_assignments :
  List.length conf = 11 /\
  forallb is_assign conf = true /\
  existsb is_import conf = false /\
  existsb is_def conf = false /\
  bound_names conf = config_names /\
  NoDup (bound_names conf) /\
  Forall (fun x => count_occ string_dec (bound_names conf) x = 1) config_names /\
  (forall builtins globals x,
     x ∉ config_names ->
     getvar (load_conf builtins globals) x = globals !! x).
Proof.
  repeat match goal with |- _ /\ _ => split end; try reflexivity.
  - apply (bool_decide_unpack _). by vm_compute.
  - unfold config_names.
    repeat (apply List.Forall_cons; [reflexivity |]). apply List.Forall_nil.
  - intros b g x Hx. rewrite getvar_load_conf, latest_None; [done |].
    by rewrite conf_bindings_names.
Qed.

Lemma conf_only_assignments_witness :
  ("tags" ∉ config_names) /\
  getvar (load_conf ∅ {["tags" := VNone]}) "tags" = Some VNone.
Proof.
  assert (Hnot : "tags" ∉ config_names).
  { apply (bool_decide_unpack _). by vm_compute. }
  split; [exact Hnot |].
  destruct conf_only_assignments as (_ & _ & _ & _ & _ & _ & _ & Hframe).
  rewrite (Hframe ∅ {["tags" := VNone]} "tags" Hnot).
  apply lookup_singleton_eq.
Defined.

(** C10: the copyright string is '2023, ' followed by the author string, so
    the author's name occurs verbatim in the copyright string. *)
Theorem conf_copyright_names_author builtins globals :
  exists a c,
    getvar (load_conf builtins globals) "author" = Some (VStr a) /\
    getvar (load_conf builtins globals) "copyright" = Some (VStr c) /\
    c = "2023, " +:+ a /\
    exists pre post, c = pre +:+ a +:+ post.
Proof.
  exists "Julian Müller", "2023, Julian Müller".
  read_conf. by exists "2023, ", "".
Qed.

(** ** How the assignments of [conf] compose *)

(** *** Stores with distinct keys *)

Lemma latest_elem_of (x : string) (v : value) (kvs : list (string * value)) :
  latest x kvs = Some v -> (x, v) ∈ kvs.
Proof.
  induction kvs as [| [k w] rest IH]; simpl; [done |].
  destruct (latest x rest) as [v' |].
  - intros [= ->]. right. by apply IH.
  - destruct (String.eqb_spec k x) as [-> | _]; [| done].
    intros [= ->]. left.
Qed.

Lemma latest_NoDup (x : string) (v : value) (kvs : list (string * value)) :
  NoDup kvs.*1 -> (x, v) ∈ kvs -> latest x kvs = Some v.
Proof.
  induction kvs as [| [k w] rest IH]; simpl.
  - intros _ Hin. by apply elem_of_nil in Hin.
  - rewrite NoDup_cons. intros [Hk Hrest] Hin.
    apply elem_of_cons in Hin as [[= -> ->] | Hin].
    + rewrite (latest_None k rest Hk). by rewrite String.eqb_refl.
    + by rewrite (IH Hrest Hin).
Qed.

Lemma latest_is_Some (x : string) (kvs : list (string * value)) :
  x ∈ kvs.*1 -> is_Some (latest x kvs).
Proof.
  induction kvs as [| [k w] rest IH]; simpl.
  - intros Hin. by apply elem_of_nil in Hin.
  - intros Hin. destruct (latest x rest) as [v' |] eqn:Hrest; [eauto |].
    apply elem_of_cons in Hin as [-> | Hin].
    + rewrite String.eqb_refl. eauto.
    + destruct (IH Hin) as [? ?]. congruence.
Qed.

Lemma latest_submseteq (x : string) (v : value)
    (kvs' kvs : list (string * value)) :
  NoDup kvs.*1 -> kvs' ⊆+ kvs ->
  latest x kvs' = Some v -> latest x kvs = Some v.
Proof.
  intros Hnd Hsub Hv. apply latest_NoDup; [done |].
  eapply elem_of_submseteq; [| done]. by apply latest_elem_of.
Qed.

Lemma latest_Permutation (x : string) (kvs' kvs : list (string * value)) :
  NoDup kvs.*1 -> kvs' ≡ₚ kvs -> latest x kvs' = latest x kvs.
Proof.
  intros Hnd Hperm.
  assert (Hnd' : NoDup kvs'.*1) by by rewrite Hperm.
  destruct (latest x kvs') as [v |] eqn:Hl'.
  - symmetry. eapply latest_submseteq; [done | | done].
    by apply Permutation_submseteq.
  - destruct (latest x kvs) as [v |] eqn:Hl; [| done].
    rewrite <- Hl'. eapply latest_submseteq; [done | | done].
    by apply Permutation_submseteq.
Qed.

Lemma store_all_Permutation (globals : gmap string value)
    (kvs' kvs : list (string * value)) :
  NoDup kvs.*1 -> kvs' ≡ₚ kvs -> store_all globals kvs' = store_all globals kvs.
Proof.
  intros Hnd Hperm. apply map_eq. intros x.
  by rewrite !lookup_store_all, (latest_Permutation x kvs' kvs).
Qed.

Lemma store_all_idemp (globals : gmap string value)
    (kvs : list (string * value)) :
  store_all (store_all globals kvs) kvs = store_all globals kvs.
Proof.
  apply map_eq. intros x. rewrite !lookup_store_all.
  by destruct (latest x kvs).
Qed.


(** *** Bodies of literal assignments *)

Lemma literal_bindings_cons (s : stmt) (body : list stmt)
    (kvs : list (string * value)) :
  mapM literal_binding (s :: body) = Some kvs <->
  exists kv kvs', literal_binding s = Some kv /\
                  mapM literal_binding body = Some kvs' /\ kvs = kv :: kvs'.
Proof.
  simpl. destruct (literal_binding s) as [kv |]; simpl.
  - destruct (mapM literal_binding body) as [kvs' |]; simpl.
    + split.
      * intros [= <-]. eauto.
      * by intros (? & ? & [= <-] & [= <-] & ->).
    + split; [done | by intros (? & ? & _ & ? & _)].
  - split; [done | by intros (? & ? & ? & _)].
Qed.

Lemma literal_bindings_submseteq (body' body : list stmt) :
  body' ⊆+ body ->
  forall kvs, mapM literal_binding body = Some kvs ->
  exists kvs', mapM literal_binding body' = Some kvs' /\ kvs' ⊆+ kvs.
Proof.
  induction 1 as [| s l1 l2 _ IH | s t l | s l1 l2 _ IH | l1 l2 l3 _ IH1 _ IH2];
    intros kvs Hkvs.
  - exists []. split; [done | by apply submseteq_nil_l].
  - apply literal_bindings_cons in Hkvs as (kv & kvs2 & Hs & Hl2 & ->).
    destruct (IH _ Hl2) as (kvs1 & Hl1 & Hsub).
    exists (kv :: kvs1). split; [| by constructor].
    apply literal_bindings_cons. eauto.
  - apply literal_bindings_cons in Hkvs as (kt & kvs1 & Ht & Hkvs & ->).
    apply literal_bindings_cons in Hkvs as (ks & kvs0 & Hs & Hl & ->).
    exists (ks :: kt :: kvs0). split; [| by constructor].
    apply literal_bindings_cons. do 2 eexists. split; [done |]. split; [| done].
    apply literal_bindings_cons. eauto.
  - apply literal_bindings_cons in Hkvs as (kv & kvs2 & Hs & Hl2 & ->).
    destruct (IH _ Hl2) as (kvs1 & Hl1 & Hsub).
    exists kvs1. split; [done | by constructor].
  - destruct (IH2 _ Hkvs) as (kvs2 & Hkvs2 & Hsub2).
    destruct (IH1 _ Hkvs2) as (kvs1 & Hkvs1 & Hsub1).
    exists kvs1. split; [done | by etrans].
Qed.

Lemma literal_bindings_names (body : list stmt) :
  forall kvs, mapM literal_binding body = Some kvs ->
  kvs.*1 = bound_names body.
Proof.
  unfold bound_names.
  induction body as [| s rest IH]; intros kvs Hkvs.
  - by injection Hkvs as <-.
  - apply literal_bindings_cons in Hkvs as (kv & kvs' & Hs & Hrest & ->).
    destruct s as [y e | | | |]; simpl in Hs; try done.
    destruct (literal_value e) as [v |]; simpl in Hs; [| done].
    injection Hs as <-. simpl. f_equal. by apply IH.
Qed.

Lemma conf_bindings_NoDup : NoDup conf_bindings.*1.
Proof. apply (bool_decide_unpack _). by vm_compute. Qed.

(** *** Properties of the module as a whole *)

(** X1: executing the module again in the namespace it produced changes
    nothing: loading is idempotent. *)
Theorem conf_reload_idempotent builtins builtins' globals :
  exists ns,
    load_conf builtins globals = Ok ns /\ load_conf builtins' ns = Ok ns.
Proof.
  exists (store_all globals conf_bindings).
  by rewrite !load_conf_ok, store_all_idemp.
Qed.

(** X2: the order of the eleven assignments is immaterial: the statements of
    [conf] executed in any other order never raise and leave the same
    namespace. *)
Theorem conf_order_irrelevant builtins globals (body' : list stmt) :
  body' ≡ₚ conf ->
  exec builtins globals body' = load_conf builtins globals.
Proof.
  intros Hperm.
  destruct (literal_bindings_submseteq body' conf
              (Permutation_submseteq _ _ Hperm) _ conf_literal_bindings)
    as (kvs' & Hkvs' & Hsub).
  rewrite (exec_literal_body builtins body' kvs' globals Hkvs'), load_conf_ok.
  f_equal. apply store_all_Permutation; [apply conf_bindings_NoDup |].
  apply submseteq_length_Permutation; [done |].
  rewrite <- (length_mapM _ _ _ Hkvs'), (Permutation_length Hperm).
  by rewrite (length_mapM _ _ _ conf_literal_bindings).
Qed.

Lemma conf_order_irrelevant_witness :
  reverse conf ≡ₚ conf /\
  exec ∅ ∅ (reverse conf) = load_conf ∅ ∅.
Proof.
  split; [apply reverse_Permutation |].
  apply (conf_order_irrelevant ∅ ∅ (reverse conf)), reverse_Permutation.
Defined.




(** X5: no assignment depends on another: when only some of the statements
    of [conf] are executed, in any order, every variable they bind gets the
    value the whole module gives it. *)
Theorem conf_lines_independent builtins globals (body' : list stmt)
    (x : string) :
  body' ⊆+ conf ->
  x ∈ bound_names body' ->
  getvar (exec builtins globals body') x
  = getvar (load_conf builtins globals) x.
Proof.
  intros Hsub Hx.
  destruct (literal_bindings_submseteq body' conf Hsub _ conf_literal_bindings)
    as (kvs' & Hkvs' & Hsub').
  rewrite (exec_literal_body builtins body' kvs' globals Hkvs').
  rewrite getvar_load_conf. unfold getvar. rewrite lookup_store_all.
  rewrite <- (literal_bindings_names body' kvs' Hkvs') in Hx.
  destruct (latest_is_Some x kvs' Hx) as [v Hv].
  by rewrite Hv, (latest_submseteq x v kvs' conf_bindings
                    conf_bindings_NoDup Hsub' Hv).
Qed.

Lemma conf_lines_independent_witness :
  take 3 conf ⊆+ conf /\
  "author" ∈ bound_names (take 3 conf) /\
  getvar (exec ∅ ∅ (take 3 conf)) "author" = getvar (load_conf ∅ ∅) "author".
Proof.
  assert (Hsub : take 3 conf ⊆+ conf).
  { apply sublist_submseteq, sublist_take. }
  assert (Hin : "author" ∈ bound_names (take 3 conf)).
  { apply (bool_decide_unpack _). by vm_compute. }
  split; [exact Hsub |]. split; [exact Hin |].
  exact (conf_lines_independent ∅ ∅ (take 3 conf) "author" Hsub Hin).
Defined.
